(** * shell.py: a locale-aware wrapper around [subprocess.run]

    A shallow embedding of [src/shell.py] and a verification of the
    properties its specification states about it.

    The module keeps mutable state (the class attribute [Shell.KEYS], the
    [locale] attribute of each [Shell] instance, the dictionaries callers pass
    as [env]) and raises exceptions, so its functions are embedded in a state
    and exception monad over an explicit [World].  The two standard-library
    functions it calls, [shlex.split] and [subprocess.run], are embedded from
    CPython 3.11 ([Lib/shlex.py], [Lib/subprocess.py]); the behaviour of the
    operating system (what a child process does) is a parameter. *)

From Stdlib Require Import Ascii String ZArith QArith.
From stdpp Require Import base option list strings gmap fin_maps.

Open Scope string_scope.
Open Scope list_scope.

(** ** Characters and strings used by the tokenizer *)

Module Chars.
Definition space : ascii := Ascii.ascii_of_nat 32.
Definition tab : ascii := Ascii.ascii_of_nat 9.
Definition cr : ascii := Ascii.ascii_of_nat 13.
Definition lf : ascii := Ascii.ascii_of_nat 10.
Definition squote : ascii := Ascii.ascii_of_nat 39.
Definition dquote : ascii := Ascii.ascii_of_nat 34.
Definition backslash : ascii := Ascii.ascii_of_nat 92.

(** Python's [c in s] for a one-character [c]. *)
Definition mem (c : ascii) (s : list ascii) : bool :=
  existsb (Ascii.eqb c) s.
End Chars.

(** ** [shlex.split(s)]: POSIX mode, [whitespace_split = True], no commenters

    [shlex.split] builds [shlex(s, posix=True)], sets [whitespace_split] and
    clears [commenters], then collects [read_token] results until the
    end-of-input token [None].  [punctuation_chars] is empty, so the state
    ['c'] and the push-back queue are never used, and with [whitespace_split]
    every character that is not whitespace, a quote or the escape character
    is a word character.

    A [string] here is a sequence of bytes, a Python [str] one of code points.
    The characters the tokenizer tells apart are ASCII, and no byte of a
    multi-byte UTF-8 sequence is ASCII, so the tokens of the UTF-8 encoding
    are the UTF-8 encodings of the tokens. *)

Module Shlex.
Import Chars.

(** [self.state]: [' '], ['a'], a quote character or the escape character.
    ([None], the state after the end of the input, is the end of the
    recursion below.)  [escapedstate] takes its values in the same type. *)
Inductive state :=
| Whitespace
| Word
| InQuote (q : ascii)
| InEscape (e : ascii).

Definition whitespace : list ascii := [space; tab; cr; lf].
Definition quotes : list ascii := [squote; dquote].
Definition escape : list ascii := [backslash].
Definition escapedquotes : list ascii := [dquote].

Definition in_quotes (s : state) : bool :=
  match s with InQuote _ => true | _ => false end.

(** The character that stands for a state in [self.state]. *)
Definition state_char (s : state) : ascii :=
  match s with
  | Whitespace => space
  | Word => Ascii.ascii_of_nat 97
  | InQuote q => q
  | InEscape e => e
  end.

(** [nextchar != s] for a character and a state. *)
Definition differs (c : ascii) (s : state) : bool :=
  negb (Ascii.eqb c (state_char s)).

Definition push (token : string) (c : ascii) : string :=
  token +:+ String c EmptyString.

(** The value [read_token] returns for [token]: [None] (end of input) when
    the token is empty and was not quoted. *)
Definition result (quoted : bool) (token : string) : option string :=
  if negb quoted && bool_decide (token = EmptyString) then None
  else Some token.

(** A token returned by [read_token] is put before those of the later
    calls; a ValueError of a later call is the outcome of the whole. *)
Definition emit (t : string) (later : string + list string)
    : string + list string :=
  match later with
  | inl msg => inl msg
  | inr ts => inr (t :: ts)
  end.

(** The loop of [read_token], continued over the calls that [list(lex)]
    makes: when a token is emitted the next call starts again with
    [quoted = False], [escapedstate = ' '] and an empty [token], in the
    state the previous call left.  The result is the ValueError message or
    the tokens. *)
Fixpoint tokens (input : string) (st escapedstate : state)
    (quoted : bool) (token : string) : string + list string :=
  match input with
  | EmptyString =>
      match st with
      | Whitespace | Word =>
          inr (match result quoted token with
               | Some t => [t]
               | None => []
               end)
      | InQuote _ => inl "No closing quotation"
      | InEscape _ => inl "No escaped character"
      end
  | String nextchar rest =>
      match st with
      | Whitespace =>
          if mem nextchar whitespace then
            if negb (bool_decide (token = EmptyString)) || quoted then
              match result quoted token with
              | Some t =>
                  emit t (tokens rest Whitespace Whitespace false EmptyString)
              | None => inr []
              end
            else tokens rest Whitespace escapedstate quoted token
          else if mem nextchar escape then
            tokens rest (InEscape nextchar) Word quoted token
          else if mem nextchar quotes then
            tokens rest (InQuote nextchar) escapedstate quoted token
          else
            tokens rest Word escapedstate quoted (String nextchar EmptyString)
      | InQuote q =>
          if Ascii.eqb nextchar q then
            tokens rest Word escapedstate true token
          else if mem nextchar escape && mem q escapedquotes then
            tokens rest (InEscape nextchar) st true token
          else
            tokens rest st escapedstate true (push token nextchar)
      | InEscape e =>
          let token :=
            if in_quotes escapedstate && differs nextchar st
               && differs nextchar escapedstate
            then push token e else token in
          tokens rest escapedstate escapedstate quoted (push token nextchar)
      | Word =>
          if mem nextchar whitespace then
            if negb (bool_decide (token = EmptyString)) || quoted then
              match result quoted token with
              | Some t =>
                  emit t (tokens rest Whitespace Whitespace false EmptyString)
              | None => inr []
              end
            else tokens rest Whitespace escapedstate quoted token
          else if mem nextchar quotes then
            tokens rest (InQuote nextchar) escapedstate quoted token
          else if mem nextchar escape then
            tokens rest (InEscape nextchar) Word quoted token
          else
            tokens rest Word escapedstate quoted (push token nextchar)
      end
  end.

Definition split (s : string) : string + list string :=
  tokens s Whitespace Whitespace false EmptyString.
End Shlex.

(** ** Data of [shell.py] and of the library calls it makes *)

Abbreviation dict := (gmap string string).

(** [class Locales(enum.Enum)]. *)
Inductive Locales := english | italian.

#[global] Instance Locales_eq_dec : EqDecision Locales.
Proof. solve_decision. Defined.

(** The members of the enumeration by name, which [Locales[name]] reads. *)
Definition _member_map_ : list (string * Locales) :=
  [("english", english); ("italian", italian)].

(** [d[key]] on a dict literal, kept as its list of items: [None] is the
    missing key. *)
Fixpoint items_lookup {K V} `{EqDecision K} (items : list (K * V)) (key : K)
    : option V :=
  match items with
  | [] => None
  | (k, v) :: items => if decide (k = key) then Some v else items_lookup items key
  end.

(** A [stdout]/[stderr] argument, of type [int | IO | None]. *)
Inductive stdio :=
| Fd (n : Z)
| Stream (handle : nat)
| Inherit.

(** Captured output: [str] with [text=True], [bytes] otherwise; [None] (the
    [option] around it) when the stream was not captured. *)
Inductive output :=
| Text (s : string)
| Bytes (b : list Byte.byte).

(** The [args] argument of [subprocess.run]: a string or a sequence. *)
Inductive popen_args :=
| ArgStr (s : string)
| ArgSeq (l : list string).

(** A float that the code hands on without looking at it. *)
Abbreviation float := Q (only parsing).

Inductive exn :=
| KeyError (key : string + Locales)
| ValueError (msg : string)
| OSError (errno : Z)
| TimeoutExpired (cmd : popen_args) (timeout : float) (out err : option output)
| CalledProcessError (returncode : Z) (cmd : popen_args) (out err : option output)
| BadReference (r : nat).
(** [BadReference] is the model's outcome for an index that names no object;
    Python references always name one. *)

(** [ShellTimeout], [ShellError]: the module's names for the two exceptions. *)
Abbreviation ShellTimeout := TimeoutExpired (only parsing).
Abbreviation ShellError := CalledProcessError (only parsing).

(** [KeyError] and [IndexError] are the subclasses of [LookupError]. *)
Definition is_LookupError (e : exn) : bool :=
  match e with KeyError _ => true | _ => false end.


Record CompletedProcess := {
  cp_args : popen_args;
  cp_returncode : Z;
  cp_stdout : option output;
  cp_stderr : option output;
}.

(** What [subprocess.run] asks of the operating system. *)
Record spawn_request := {
  rq_args : popen_args;
  rq_shell : bool;
  rq_env : dict;
  rq_stdout : stdio;
  rq_stderr : stdio;
  rq_timeout : float;
  rq_text : bool;
}.

(** What the operating system answers. *)
Inductive child_outcome :=
| Exited (returncode : Z) (out err : option output)
| TimedOut (out err : option output)
| SpawnFailed (errno : Z).

(** The argument vector of the child on POSIX ([Popen._execute_child]). *)
Definition posix_argv (args : popen_args) (shell : bool) : list string :=
  let args := match args with ArgStr s => [s] | ArgSeq l => l end in
  if shell then ["/bin/sh"; "-c"] ++ args else args.

Inductive log_record :=
| SettingLocale (locale_ : string)
| Running (command : string)
| GotResult (res : CompletedProcess).

(** A [Shell] instance: its attribute [locale].  [KEYS] is not an attribute of
    the instance: it is never assigned through [self], so [self.KEYS] is the
    class attribute, one dict shared by all instances. *)
Record ShellObject := { locale : Locales }.

(** The state of the program and of what it acts on.  [heap] holds the dict
    objects: those a caller passes as [env], of type [dict[str, str]], and the
    copies [run] makes of [os.environ] (itself no [dict], and kept apart). *)
Record World := {
  KEYS : dict;                       (* [Shell.KEYS] *)
  objects : list ShellObject;        (* [Shell] instances, by reference *)
  environ : dict;                    (* [os.environ] *)
  heap : list dict;                  (* dict objects, by reference *)
  spawned : list spawn_request;      (* requests made so far, oldest first *)
  logged : list log_record;          (* [logger.debug] records, oldest first *)
  os_child : list spawn_request → spawn_request → child_outcome;
}.

Definition with_KEYS (f : dict → dict) (w : World) : World :=
  {| KEYS := f (KEYS w); objects := objects w; environ := environ w;
     heap := heap w; spawned := spawned w; logged := logged w;
     os_child := os_child w |}.

Definition with_objects (f : list ShellObject → list ShellObject) (w : World)
    : World :=
  {| KEYS := KEYS w; objects := f (objects w); environ := environ w;
     heap := heap w; spawned := spawned w; logged := logged w;
     os_child := os_child w |}.

Definition with_heap (f : list dict → list dict) (w : World) : World :=
  {| KEYS := KEYS w; objects := objects w; environ := environ w;
     heap := f (heap w); spawned := spawned w; logged := logged w;
     os_child := os_child w |}.

Definition with_spawned (f : list spawn_request → list spawn_request)
    (w : World) : World :=
  {| KEYS := KEYS w; objects := objects w; environ := environ w;
     heap := heap w; spawned := f (spawned w); logged := logged w;
     os_child := os_child w |}.

Definition with_logged (f : list log_record → list log_record) (w : World)
    : World :=
  {| KEYS := KEYS w; objects := objects w; environ := environ w;
     heap := heap w; spawned := spawned w; logged := f (logged w);
     os_child := os_child w |}.

(** ** The monad: state, and exceptions that keep the state reached *)

Definition M (A : Type) : Type := World → World * (exn + A).

Definition ret {A} (a : A) : M A := λ w, (w, inr a).

Definition raise {A} (e : exn) : M A := λ w, (w, inl e).

Definition bind {A B} (c : M A) (k : A → M B) : M B :=
  λ w, match c w with
       | (w', inr a) => k a w'
       | (w', inl e) => (w', inl e)
       end.

Definition gets {A} (f : World → A) : M A := λ w, (w, inr (f w)).

Definition modify (f : World → World) : M unit := λ w, (f w, inr tt).

Notation "'let*' x ':=' c 'in' k" := (bind c (λ x, k))
  (at level 10, x name, c at level 100, k at level 200).

(** ** Primitive operations on the store *)

Definition logger_debug (r : log_record) : M unit :=
  modify (with_logged (λ l, l ++ [r])).

(** [d[key]] for a dict literal. *)
Definition getitem {K V} `{EqDecision K} (items : list (K * V)) (key : K)
    (repr : K → string + Locales) : M V :=
  match items_lookup items key with
  | Some v => ret v
  | None => raise (KeyError (repr key))
  end.

(** [self.KEYS[key]]. *)
Definition KEYS_getitem (key : string) : M string :=
  let* keys := gets KEYS in
  match keys !! key with
  | Some v => ret v
  | None => raise (KeyError (inl key))
  end.

(** [self.locale]. *)
Definition getattr_locale (self : nat) : M Locales :=
  let* objs := gets objects in
  match objs !! self with
  | Some o => ret (locale o)
  | None => raise (BadReference self)
  end.

(** [self.locale = lc]. *)
Definition setattr_locale (self : nat) (lc : Locales) : M unit :=
  let* objs := gets objects in
  match objs !! self with
  | Some _ => modify (with_objects (<[self := {| locale := lc |}]>))
  | None => raise (BadReference self)
  end.

(** The dict a reference names. *)
Definition deref (r : nat) : M dict :=
  let* h := gets heap in
  match h !! r with
  | Some d => ret d
  | None => raise (BadReference r)
  end.

(** A new dict object. *)
Definition new_dict (d : dict) : M nat :=
  let* h := gets heap in
  let* _ := modify (with_heap (λ h, h ++ [d])) in
  ret (length h).

(** [os.environ.copy()]. *)
Definition os_environ_copy : M nat :=
  let* e := gets environ in
  new_dict e.

(** [key in d]. *)
Definition dict_contains (r : nat) (key : string) : M bool :=
  let* d := deref r in
  ret (bool_decide (is_Some (d !! key))).

(** [d.update(other)], in place: the entries of [other] win. *)
Definition dict_update (r : nat) (other : dict) : M unit :=
  let* d := deref r in
  modify (with_heap (<[r := other ∪ d]>)).

(** [Locales[name]]. *)
Definition Locales_getitem (name : string) : M Locales :=
  getitem _member_map_ name inl.

(** ** [subprocess.run]

    The call creates the child with the environment the dict holds at that
    moment, waits for it, and with [check] set turns a non-zero return code
    into [CalledProcessError] ([if check and retcode: raise ...]). *)

Module subprocess.
Definition PIPE : stdio := Fd (-1).
Definition STDOUT : stdio := Fd (-2).
Definition DEVNULL : stdio := Fd (-3).

Definition run (args : popen_args) (stdout stderr : stdio) (timeout : float)
    (env : nat) (check shell text : bool) : M CompletedProcess :=
  let* e := deref env in
  let rq := {| rq_args := args; rq_shell := shell; rq_env := e;
               rq_stdout := stdout; rq_stderr := stderr;
               rq_timeout := timeout; rq_text := text |} in
  let* before := gets spawned in
  let* child := gets os_child in
  let* _ := modify (with_spawned (λ l, l ++ [rq])) in
  match child before rq with
  | SpawnFailed errno => raise (OSError errno)
  | TimedOut out err => raise (TimeoutExpired args timeout out err)
  | Exited retcode out err =>
      if check && negb (retcode =? 0)%Z
      then raise (CalledProcessError retcode args out err)
      else ret {| cp_args := args; cp_returncode := retcode;
                  cp_stdout := out; cp_stderr := err |}
  end.
End subprocess.

(** [shlex.split(command)] as a step of the monad. *)
Definition shlex_split (command : string) : M (list string) :=
  match Shlex.split command with
  | inl msg => raise (ValueError msg)
  | inr cmds => ret cmds
  end.

(** ** [class Shell] *)

(** The keyword arguments of [Shell.run]. *)
Record run_kwargs := {
  timeout : float;
  stdout : stdio;
  stderr : stdio;
  env : option nat;
  check : bool;
  shell : bool;
  text : bool;
}.

Module Shell.
(** The dict the class body binds to [KEYS]. *)
Definition KEYS_literal : dict := {[ "LOCALE_KEY" := "LC_ALL" ]}.

(** The defaults of the keyword arguments of [run]. *)
Definition defaults : run_kwargs :=
  {| timeout := 60; stdout := subprocess.PIPE; stderr := subprocess.PIPE;
     env := None; check := false; shell := true; text := true |}.

(** [__init__] on the object at [self]. *)
Definition __init__ (self : nat) (_locale : Locales) (keys : option dict)
    : M unit :=
  let* _ := setattr_locale self _locale in
  match keys with
  | Some keys => modify (with_KEYS (λ KEYS, keys ∪ KEYS))
  | None => ret tt
  end.

(** [Shell(_locale, keys)]: a new object, then [__init__] on it.  An object
    has no [locale] before [__init__] assigns it; the new object is made
    with the value that [__init__] assigns first. *)
Definition new (_locale : Locales) (keys : option dict) : M nat :=
  let* objs := gets objects in
  let self := length objs in
  let* _ := modify (with_objects (λ l, l ++ [{| locale := _locale |}])) in
  let* _ := __init__ self _locale keys in
  ret self.

(** The dict literal that [_get_locale_env] binds to [_map]. *)
Definition _map : list (Locales * string) :=
  [(english, "en_US"); (italian, "it_IT")].

Definition _get_locale_env (self : nat) : M dict :=
  let _map := _map in
  let* key := KEYS_getitem "LOCALE_KEY" in
  let* lc := getattr_locale self in
  let* value := getitem _map lc inr in
  ret {[ key := value ]}.

Definition run (self : nat) (command : string) (kw : run_kwargs)
    : M CompletedProcess :=
  let* env := match env kw with
              | Some env => ret env
              | None => os_environ_copy
              end in
  let* key := KEYS_getitem "LOCALE_KEY" in
  let* present := dict_contains env key in
  let* _ := if present then ret tt
            else let* locale_env := _get_locale_env self in
                 dict_update env locale_env in
  let* cmds := shlex_split command in
  let* _ := logger_debug (Running command) in
  let* res := subprocess.run (ArgSeq cmds) (stdout kw) (stderr kw)
                (timeout kw) env (check kw) (shell kw) (text kw) in
  let* _ := logger_debug (GotResult res) in
  ret res.
End Shell.

(** ** Module level *)

(** The state when the class body has run: no instance yet. *)
Definition class_defined (process_env : dict)
    (child : list spawn_request → spawn_request → child_outcome) : World :=
  {| KEYS := Shell.KEYS_literal; objects := []; environ := process_env;
     heap := []; spawned := []; logged := []; os_child := child |}.

(** [_default_shell = Shell()]: the first object. *)
Definition _default_shell : nat := 0.

(** The state when the module has been imported. *)
Definition imported (process_env : dict)
    (child : list spawn_request → spawn_request → child_outcome) : World :=
  (Shell.new english None (class_defined process_env child)).1.

(** [locale = _default_shell.locale]: the value at import, which no later
    assignment to [_default_shell.locale] changes. *)
Definition locale_at_import : Locales := english.

(** [run = _default_shell.run]. *)
Definition run : string → run_kwargs → M CompletedProcess :=
  Shell.run _default_shell.

Definition set_locale (locale_ : string) : M unit :=
  let* _ := logger_debug (SettingLocale locale_) in
  let* lc := Locales_getitem locale_ in
  setattr_locale _default_shell lc.

(** The configuration: the key mapping and the locale of every instance. *)
Definition configuration (w : World) : dict * list ShellObject :=
  (KEYS w, objects w).

(** ** Vocabulary of the statements *)

(** The string the table of [_get_locale_env] gives for a locale. *)
Definition locale_string (lc : Locales) : string :=
  match lc with
  | english => "en_US"
  | italian => "it_IT"
  end.

(** The environment after lines 71-72 of [run], from the one before. *)
Definition resolve (key value : string) (d : dict) : dict :=
  if decide (is_Some (d !! key)) then d else <[key := value]> d.

(** The request [run] makes for the tokens [cmds] with environment [e]. *)
Definition request (cmds : list string) (kw : run_kwargs) (e : dict)
    : spawn_request :=
  {| rq_args := ArgSeq cmds; rq_shell := shell kw; rq_env := e;
     rq_stdout := stdout kw; rq_stderr := stderr kw;
     rq_timeout := timeout kw; rq_text := text kw |}.

(** Lines 73-86 of [run], once the environment [e] is resolved. *)
Definition tokenize_and_spawn (command : string) (kw : run_kwargs) (e : dict)
    (w : World) : World * (exn + CompletedProcess) :=
  match Shlex.split command with
  | inl msg => (w, inl (ValueError msg))
  | inr cmds =>
      let rq := request cmds kw e in
      let w' := with_spawned (λ l, l ++ [rq])
                  (with_logged (λ l, l ++ [Running command]) w) in
      match os_child w (spawned w) rq with
      | SpawnFailed errno => (w', inl (OSError errno))
      | TimedOut out err =>
          (w', inl (TimeoutExpired (ArgSeq cmds) (timeout kw) out err))
      | Exited rc out err =>
          if check kw && negb (rc =? 0)%Z
          then (w', inl (CalledProcessError rc (ArgSeq cmds) out err))
          else
            let res := {| cp_args := ArgSeq cmds; cp_returncode := rc;
                          cp_stdout := out; cp_stderr := err |} in
            (with_logged (λ l, l ++ [GotResult res]) w', inr res)
      end
  end.

(** [w'] comes after [w] with the configuration, the process environment and
    the operating system as they were, no dict object lost and no request
    forgotten. *)
Definition frame (w w' : World) : Prop :=
  configuration w' = configuration w
  ∧ environ w' = environ w
  ∧ os_child w' = os_child w
  ∧ length (heap w') ≥ length (heap w)
  ∧ spawned w `prefix_of` spawned w'.

(** A computation that only makes such steps, whatever its outcome. *)
Definition keeps {A} (c : M A) : Prop := ∀ w, frame w (c w).1.

(** Two worlds that differ at most in what was logged. *)
Definition same_but_logged (w1 w2 : World) : Prop :=
  configuration w1 = configuration w2
  ∧ environ w1 = environ w2
  ∧ heap w1 = heap w2
  ∧ spawned w1 = spawned w2
  ∧ os_child w1 = os_child w2.

(** A computation whose outcome and effects do not depend on the log. *)
Definition log_blind {A} (c : M A) : Prop :=
  ∀ w1 w2, same_but_logged w1 w2 →
    same_but_logged (c w1).1 (c w2).1 ∧ (c w1).2 = (c w2).2.

(** What a client of the module can do, and the states it can reach. *)
Inductive action :=
| NewShell (_locale : Locales) (keys : option dict)
| Run (self : nat) (command : string) (kw : run_kwargs)
| SetLocale (locale_ : string)
| NewDict (d : dict)
| StoreDict (r : nat) (d : dict).

Definition perform (a : action) (w : World) : World :=
  match a with
  | NewShell _locale keys => (Shell.new _locale keys w).1
  | Run self command kw => (Shell.run self command kw w).1
  | SetLocale locale_ => (set_locale locale_ w).1
  | NewDict d => (new_dict d w).1
  | StoreDict r d => with_heap (<[r := d]>) w
  end.

Inductive reachable : World → Prop :=
| reachable_imported process_env child :
    reachable (imported process_env child)
| reachable_perform a w :
    reachable w → reachable (perform a w).

(** A computation that makes no request and leaves the operating system as
    it is. *)
Definition quiet {A} (c : M A) : Prop :=
  ∀ w, spawned (c w).1 = spawned w ∧ os_child (c w).1 = os_child w.



(** The invariant of the reachable states: the key is configured and the
    default instance exists. *)
Definition configured (w : World) : Prop :=
  is_Some (KEYS w !! "LOCALE_KEY") ∧ is_Some (objects w !! _default_shell).

(** ** Vocabulary of the further properties *)

(** Every character of [s] satisfies [p]. *)
Fixpoint all_chars (p : ascii → bool) (s : string) : bool :=
  match s with
  | EmptyString => true
  | String c s => p c && all_chars p s
  end.

Definition is_whitespace (c : ascii) : bool := Chars.mem c Shlex.whitespace.

(** Neither a quote nor the escape character. *)
Definition unquoted (c : ascii) : bool :=
  negb (Chars.mem c Shlex.quotes) && negb (Chars.mem c Shlex.escape).

(** A character the tokenizer puts into a word as it is. *)
Definition plain (c : ascii) : bool := negb (is_whitespace c) && unquoted c.

(** A token as plain commands give them: not empty, without whitespace. *)
Definition word (t : string) : Prop :=
  t ≠ EmptyString ∧ all_chars (λ c, negb (is_whitespace c)) t = true.

(** What [subprocess.run] makes of the outcome of the child. *)
Definition result_of_child (chk : bool) (t : float) (args : popen_args)
    (o : child_outcome) : exn + CompletedProcess :=
  match o with
  | SpawnFailed errno => inl (OSError errno)
  | TimedOut out err => inl (TimeoutExpired args t out err)
  | Exited rc out err =>
      if chk && negb (rc =? 0)%Z
      then inl (CalledProcessError rc args out err)
      else inr {| cp_args := args; cp_returncode := rc;
                  cp_stdout := out; cp_stderr := err |}
  end.

(** The outcome [r] of [run], started where the requests made were [before]
    and the operating system was [child]: no request and an exception, or one
    request, for the tokens of the command, and what [subprocess.run] makes
    of the child's outcome. *)
Definition run_post (command : string) (kw : run_kwargs)
    (before : list spawn_request)
    (child : list spawn_request → spawn_request → child_outcome)
    (r : World * (exn + CompletedProcess)) : Prop :=
  (spawned r.1 = before ∧ ∃ e, r.2 = inl e)
  ∨ (∃ cmds e,
       Shlex.split command = inr cmds
       ∧ spawned r.1 = before ++ [request cmds kw e]
       ∧ r.2 = result_of_child (check kw) (timeout kw) (ArgSeq cmds)
                 (child before (request cmds kw e))).

(** The debug records of a [run] whose environment was resolved. *)
Definition run_log (command : string) (r : exn + CompletedProcess)
    : list log_record :=
  match Shlex.split command with
  | inl _ => []
  | inr _ => Running command :: match r with
                                | inr res => [GotResult res]
                                | inl _ => []
                                end
  end.

(** The characters of [s] that satisfy [p], in their order. *)
Fixpoint keep_chars (p : ascii → bool) (s : string) : string :=
  match s with
  | EmptyString => EmptyString
  | String c s => if p c then String c (keep_chars p s) else keep_chars p s
  end.

(** The tokens one after the other, with nothing between them. *)
Definition joined (ts : list string) : string :=
  foldr String.append EmptyString ts.


(** ** Tactics and hint databases *)

Ltac unfold_ops :=
  cbv [Shell.run Shell._get_locale_env Shell.new Shell.__init__
       subprocess.run shlex_split set_locale run Locales_getitem
       bind ret raise gets modify KEYS_getitem getattr_locale setattr_locale
       deref new_dict os_environ_copy dict_contains dict_update
       logger_debug getitem].

Ltac fields :=
  cbn [KEYS objects environ heap spawned logged os_child
       with_KEYS with_objects with_heap with_spawned with_logged
       fst snd configuration].

(** On a world given by its fields. *)
Ltac world_fields :=
  cbv [KEYS objects environ heap spawned logged os_child
       with_KEYS with_objects with_heap with_spawned with_logged
       configuration] in *.

Create HintDb keeps discriminated.
Create HintDb log_blind discriminated.
Create HintDb quiet discriminated.

(** * Proofs *)

(** ** The tokenizer on some command lines *)

Example split_echo : Shlex.split "echo hello" = inr ["echo"; "hello"].
Proof. reflexivity. Qed.

Example split_quoted : Shlex.split "printf '%s' 'a b'" = inr ["printf"; "%s"; "a b"].
Proof. reflexivity. Qed.

Example split_unclosed : Shlex.split "echo 'abc" = inl "No closing quotation".
Proof. reflexivity. Qed.

Example split_trailing_escape : Shlex.split "echo \" = inl "No escaped character".
Proof. reflexivity. Qed.

Example split_empty : Shlex.split EmptyString = inr [].
Proof. reflexivity. Qed.

Example split_empty_quoted : Shlex.split "rm ''" = inr ["rm"; EmptyString].
Proof. reflexivity. Qed.

Example split_escaped_space : Shlex.split "ls my\ file" = inr ["ls"; "my file"].
Proof. reflexivity. Qed.

(** ** The monad and the primitive operations *)

Lemma bind_ok {A B} (c : M A) (k : A → M B) w w' a :
  c w = (w', inr a) → bind c k w = k a w'.
Proof. intros H. unfold bind. by rewrite H. Qed.

Lemma table_lookup lc :
  items_lookup Shell._map lc = Some (locale_string lc).
Proof. by destruct lc. Qed.

Lemma get_locale_env_ok self w key o :
  KEYS w !! "LOCALE_KEY" = Some key →
  objects w !! self = Some o →
  Shell._get_locale_env self w = (w, inr {[ key := locale_string (locale o) ]}).
Proof.
  intros HK Ho. unfold_ops. rewrite HK, Ho, table_lookup. reflexivity.
Qed.

Lemma update_singleton (key value : string) (d : dict) :
  {[ key := value ]} ∪ d = <[key := value]> d.
Proof. symmetry. apply insert_union_singleton_l. Qed.

Lemma with_heap_ext f g w :
  f (heap w) = g (heap w) → with_heap f w = with_heap g w.
Proof. intros H. unfold with_heap. by rewrite H. Qed.

Lemma with_heap_id f w : f (heap w) = heap w → with_heap f w = w.
Proof. intros H. unfold with_heap. rewrite H. by destruct w. Qed.

Lemma with_heap_compose f g w :
  with_heap f (with_heap g w) = with_heap (λ h, f (g h)) w.
Proof. reflexivity. Qed.

(** ** What [run] computes *)

Lemma tokenize_and_spawn_eq command kw env e w :
  heap w !! env = Some e →
  (let* cmds := shlex_split command in
   let* _ := logger_debug (Running command) in
   let* res := subprocess.run (ArgSeq cmds) (stdout kw) (stderr kw)
                 (timeout kw) env (check kw) (shell kw) (text kw) in
   let* _ := logger_debug (GotResult res) in
   ret res) w
  = tokenize_and_spawn command kw e w.
Proof.
  destruct w as [K O E H S L child].
  intros He. unfold tokenize_and_spawn, request. unfold_ops. world_fields.
  destruct (Shlex.split command) as [msg|cmds]; [done|].
  rewrite He.
  destruct (child _ _) as [rc out err|out err|errno]; [|done..].
  by destruct (check kw && negb (rc =? 0)%Z).
Qed.

(** [run] with a dict of the caller's as [env] that has the key. *)
Lemma run_env_given_present self command kw w key r d :
  KEYS w !! "LOCALE_KEY" = Some key →
  env kw = Some r →
  heap w !! r = Some d →
  is_Some (d !! key) →
  Shell.run self command kw w = tokenize_and_spawn command kw d w.
Proof.
  intros HK Hkw Hd Hin.
  unfold Shell.run. rewrite Hkw.
  erewrite bind_ok by reflexivity.
  erewrite bind_ok by (unfold_ops; by rewrite HK).
  erewrite bind_ok by (unfold_ops; by rewrite Hd).
  rewrite bool_decide_true by done.
  erewrite bind_ok by reflexivity.
  by apply tokenize_and_spawn_eq.
Qed.

(** [run] with a dict of the caller's as [env] that lacks the key. *)
Lemma run_env_given_absent self command kw w key o r d :
  KEYS w !! "LOCALE_KEY" = Some key →
  objects w !! self = Some o →
  env kw = Some r →
  heap w !! r = Some d →
  d !! key = None →
  let e := <[key := locale_string (locale o)]> d in
  Shell.run self command kw w
  = tokenize_and_spawn command kw e (with_heap (<[r := e]>) w).
Proof.
  intros HK Ho Hkw Hd Hout e.
  assert (Hr : r < length (heap w)) by by eapply lookup_lt_Some.
  unfold Shell.run. rewrite Hkw.
  erewrite bind_ok by reflexivity.
  erewrite bind_ok by (unfold_ops; by rewrite HK).
  erewrite bind_ok by (unfold_ops; by rewrite Hd).
  rewrite bool_decide_false by (rewrite Hout; by intros [? ?]).
  erewrite bind_ok; last first.
  { erewrite bind_ok by by apply get_locale_env_ok.
    unfold_ops. rewrite Hd. reflexivity. }
  rewrite update_singleton.
  apply tokenize_and_spawn_eq. fields. by apply list_lookup_insert_eq.
Qed.

(** [run] without [env]: the copy of [os.environ] is a new dict. *)
Lemma run_env_omitted self command kw w key o :
  KEYS w !! "LOCALE_KEY" = Some key →
  objects w !! self = Some o →
  env kw = None →
  let e := resolve key (locale_string (locale o)) (environ w) in
  Shell.run self command kw w
  = tokenize_and_spawn command kw e (with_heap (λ h, h ++ [e]) w).
Proof.
  intros HK Ho Hkw e.
  assert (Hnew : ∀ d : dict, (heap w ++ [d]) !! length (heap w) = Some d)
    by (intros d; by apply list_lookup_middle).
  unfold Shell.run. rewrite Hkw.
  erewrite bind_ok by reflexivity.
  erewrite bind_ok by (unfold_ops; fields; by rewrite HK).
  erewrite bind_ok by (unfold_ops; fields; by rewrite Hnew).
  subst e. unfold resolve.
  destruct (decide (is_Some (environ w !! key))) as [Hin|Hin].
  - rewrite bool_decide_true by done.
    erewrite bind_ok by reflexivity.
    apply tokenize_and_spawn_eq. fields. apply Hnew.
  - rewrite bool_decide_false by done.
    erewrite bind_ok; last first.
    { erewrite bind_ok by by apply get_locale_env_ok.
      unfold_ops. fields. rewrite Hnew. reflexivity. }
    rewrite update_singleton, with_heap_compose.
    erewrite (with_heap_ext _ (λ h, h ++ [_])); last first.
    { rewrite insert_app_r_alt, Nat.sub_diag by lia. reflexivity. }
    apply tokenize_and_spawn_eq. fields. apply Hnew.
Qed.

(** ** What [run] leaves alone, whatever happens *)

Lemma frame_refl w : frame w w.
Proof. repeat split; [lia|reflexivity]. Qed.

Lemma frame_trans w1 w2 w3 : frame w1 w2 → frame w2 w3 → frame w1 w3.
Proof.
  intros (Hc1 & He1 & Ho1 & Hh1 & Hs1) (Hc2 & He2 & Ho2 & Hh2 & Hs2).
  repeat split; [congruence.. | lia | by etrans].
Qed.

Lemma keeps_ret {A} (a : A) : keeps (ret a).
Proof. intros w. apply frame_refl. Qed.

Lemma keeps_raise {A} e : keeps (@raise A e).
Proof. intros w. apply frame_refl. Qed.

Lemma keeps_gets {A} (f : World → A) : keeps (gets f).
Proof. intros w. apply frame_refl. Qed.

Lemma keeps_bind {A B} (c : M A) (k : A → M B) :
  keeps c → (∀ a, keeps (k a)) → keeps (bind c k).
Proof.
  intros Hc Hk w. unfold bind. specialize (Hc w).
  destruct (c w) as [w' [e|a]]; [done|].
  eapply frame_trans; [exact Hc|apply Hk].
Qed.

Lemma keeps_logger_debug r : keeps (logger_debug r).
Proof. intros w. repeat split; [cbn; lia|reflexivity]. Qed.

Lemma keeps_with_heap f :
  (∀ h : list dict, length (f h) ≥ length h) → keeps (modify (with_heap f)).
Proof. intros Hf w. repeat split; [apply Hf|reflexivity]. Qed.

Lemma keeps_with_spawned rq : keeps (modify (with_spawned (λ l, l ++ [rq]))).
Proof. intros w. repeat split; [cbn; lia|]. by apply prefix_app_r. Qed.

#[local] Hint Resolve keeps_ret keeps_raise keeps_gets keeps_logger_debug
  keeps_with_spawned : keeps.

Ltac keeps_steps :=
  repeat first
    [ solve [auto with keeps]
    | progress intros
    | apply keeps_bind
    | case_match ].

Lemma keeps_getitem {K V} `{EqDecision K} (items : list (K * V)) key repr :
  keeps (getitem items key repr).
Proof. unfold getitem. keeps_steps. Qed.

Lemma keeps_KEYS_getitem key : keeps (KEYS_getitem key).
Proof. unfold KEYS_getitem. keeps_steps. Qed.

Lemma keeps_getattr_locale self : keeps (getattr_locale self).
Proof. unfold getattr_locale. keeps_steps. Qed.

Lemma keeps_deref r : keeps (deref r).
Proof. unfold deref. keeps_steps. Qed.

#[local] Hint Resolve keeps_getitem keeps_KEYS_getitem keeps_getattr_locale
  keeps_deref : keeps.

Lemma keeps_new_dict d : keeps (new_dict d).
Proof.
  unfold new_dict. keeps_steps. apply keeps_with_heap.
  intros h. rewrite length_app. lia.
Qed.

Lemma keeps_dict_update r other : keeps (dict_update r other).
Proof.
  unfold dict_update. keeps_steps. apply keeps_with_heap.
  intros h. rewrite length_insert. lia.
Qed.

#[local] Hint Resolve keeps_new_dict keeps_dict_update : keeps.

Lemma keeps_dict_contains r key : keeps (dict_contains r key).
Proof. unfold dict_contains. keeps_steps. Qed.

Lemma keeps_os_environ_copy : keeps os_environ_copy.
Proof. unfold os_environ_copy. keeps_steps. Qed.

Lemma keeps_shlex_split command : keeps (shlex_split command).
Proof. unfold shlex_split. keeps_steps. Qed.

Lemma keeps_get_locale_env self : keeps (Shell._get_locale_env self).
Proof. unfold Shell._get_locale_env. keeps_steps. Qed.

Lemma keeps_subprocess_run args out err t env chk sh txt :
  keeps (subprocess.run args out err t env chk sh txt).
Proof. unfold subprocess.run. keeps_steps. Qed.

#[local] Hint Resolve keeps_dict_contains keeps_os_environ_copy
  keeps_shlex_split keeps_get_locale_env keeps_subprocess_run : keeps.

(** [run] changes neither the configuration nor [os.environ]. *)
Lemma keeps_run self command kw : keeps (Shell.run self command kw).
Proof. unfold Shell.run. keeps_steps. Qed.

(** ** [run] does not read the log *)

Lemma log_blind_ret {A} (a : A) : log_blind (ret a).
Proof. by intros w1 w2 H. Qed.

Lemma log_blind_raise {A} e : log_blind (@raise A e).
Proof. by intros w1 w2 H. Qed.

Lemma log_blind_bind {A B} (c : M A) (k : A → M B) :
  log_blind c → (∀ a, log_blind (k a)) → log_blind (bind c k).
Proof.
  intros Hc Hk w1 w2 H. unfold bind.
  destruct (Hc w1 w2 H) as [Hw Hr].
  destruct (c w1) as [w1' r1], (c w2) as [w2' r2]. cbn in Hw, Hr. subst r2.
  destruct r1 as [e|a]; [done|]. by apply Hk.
Qed.

Lemma log_blind_gets {A} (f : World → A) :
  (∀ w1 w2, same_but_logged w1 w2 → f w1 = f w2) → log_blind (gets f).
Proof. intros Hf w1 w2 H. split; [done|]. cbn. f_equal. by apply Hf. Qed.

Lemma log_blind_gets_KEYS : log_blind (gets KEYS).
Proof. apply log_blind_gets. intros w1 w2 (Hc & _). by inversion Hc. Qed.

Lemma log_blind_gets_objects : log_blind (gets objects).
Proof. apply log_blind_gets. intros w1 w2 (Hc & _). by inversion Hc. Qed.

Lemma log_blind_gets_environ : log_blind (gets environ).
Proof. apply log_blind_gets. by intros w1 w2 (_ & He & _). Qed.

Lemma log_blind_gets_heap : log_blind (gets heap).
Proof. apply log_blind_gets. by intros w1 w2 (_ & _ & Hh & _). Qed.

Lemma log_blind_gets_spawned : log_blind (gets spawned).
Proof. apply log_blind_gets. by intros w1 w2 (_ & _ & _ & Hs & _). Qed.

Lemma log_blind_gets_os_child : log_blind (gets os_child).
Proof. apply log_blind_gets. by intros w1 w2 (_ & _ & _ & _ & Ho). Qed.

Lemma log_blind_logger_debug r : log_blind (logger_debug r).
Proof. by intros w1 w2 H. Qed.

Lemma log_blind_with_heap f : log_blind (modify (with_heap f)).
Proof.
  intros w1 w2 (Hc & He & Hh & Hs & Ho). repeat split; try done.
  cbn. by rewrite Hh.
Qed.

Lemma log_blind_with_spawned f : log_blind (modify (with_spawned f)).
Proof.
  intros w1 w2 (Hc & He & Hh & Hs & Ho). repeat split; try done.
  cbn. by rewrite Hs.
Qed.

#[local] Hint Resolve log_blind_ret log_blind_raise log_blind_gets_KEYS
  log_blind_gets_objects log_blind_gets_environ log_blind_gets_heap
  log_blind_gets_spawned log_blind_gets_os_child log_blind_logger_debug
  log_blind_with_heap log_blind_with_spawned : log_blind.

Ltac log_blind_steps :=
  repeat first
    [ solve [auto with log_blind]
    | progress intros
    | apply log_blind_bind
    | case_match ].

(** [run], with the same arguments, in two worlds that differ in the log. *)
Lemma log_blind_run self command kw : log_blind (Shell.run self command kw).
Proof.
  unfold Shell.run, Shell._get_locale_env, subprocess.run, shlex_split,
    os_environ_copy, new_dict, dict_contains, dict_update, deref,
    KEYS_getitem, getattr_locale, getitem.
  log_blind_steps.
Qed.

(** ** Construction and [set_locale] *)

Lemma new_eq _locale keys w :
  Shell.new _locale keys w
  = (with_KEYS (λ K, match keys with Some keys => keys ∪ K | None => K end)
       (with_objects (λ l, l ++ [{| locale := _locale |}]) w),
     inr (length (objects w))).
Proof.
  destruct w as [K O E H S L child].
  unfold_ops. world_fields.
  rewrite list_lookup_middle by done.
  rewrite insert_app_r_alt, Nat.sub_diag by lia. cbn [insert list_insert].
  by destruct keys.
Qed.

Lemma set_locale_known locale_ lc w :
  items_lookup _member_map_ locale_ = Some lc →
  is_Some (objects w !! _default_shell) →
  set_locale locale_ w
  = (with_objects (<[_default_shell := {| locale := lc |}]>)
       (with_logged (λ l, l ++ [SettingLocale locale_]) w),
     inr tt).
Proof.
  intros Hname [o Ho]. unfold_ops. rewrite Hname. fields. by rewrite Ho.
Qed.

Lemma set_locale_unknown locale_ w :
  items_lookup _member_map_ locale_ = None →
  set_locale locale_ w
  = (with_logged (λ l, l ++ [SettingLocale locale_]) w,
     inl (KeyError (inl locale_))).
Proof. intros Hname. unfold_ops. by rewrite Hname. Qed.

Lemma member_map_names locale_ :
  items_lookup _member_map_ locale_ = None
  ↔ locale_ ≠ "english" ∧ locale_ ≠ "italian".
Proof.
  unfold _member_map_. cbn [items_lookup].
  destruct (decide ("english" = locale_)) as [<-|He];
    [split; [done|by intros [? _]]|].
  destruct (decide ("italian" = locale_)) as [<-|Hi];
    [split; [done|by intros [_ ?]]|].
  split; [intros _; split; congruence|done].
Qed.

(** ** An invariant of the reachable states *)

Lemma configured_imported process_env child :
  configured (imported process_env child).
Proof. unfold imported. rewrite new_eq. split; cbn; eauto. Qed.

Lemma configured_frame w w' : frame w w' → configured w → configured w'.
Proof.
  intros (Hc & _) [HK Ho]. inversion Hc as [[HK' Ho']].
  split; congruence.
Qed.

Lemma configured_perform a w : configured w → configured (perform a w).
Proof.
  intros [HK Ho]. destruct a as [l keys|self command kw|name|d|r d];
    unfold perform.
  - rewrite new_eq. split; fields.
    + destruct keys as [keys|]; [|done].
      rewrite lookup_union. destruct HK as [k ->].
      by destruct (keys !! "LOCALE_KEY").
    + destruct Ho as [o Ho]. exists o. by apply lookup_app_l_Some.
  - eapply configured_frame; [apply keeps_run|done].
  - destruct (items_lookup _member_map_ name) as [lc|] eqn:Hname.
    + rewrite (set_locale_known _ lc) by done. split; fields; [done|].
      apply lookup_lt_is_Some. rewrite length_insert.
      by apply lookup_lt_is_Some.
    + by rewrite set_locale_unknown.
  - eapply configured_frame; [apply keeps_new_dict|done].
  - done.
Qed.

Lemma reachable_configured w : reachable w → configured w.
Proof.
  induction 1 as [process_env child|a w _ IH].
  - apply configured_imported.
  - by apply configured_perform.
Qed.

(** ** The requests [run] makes *)

Lemma tokenize_and_spawn_world command kw e w :
  let w' := (tokenize_and_spawn command kw e w).1 in
  heap w' = heap w
  ∧ spawned w' = spawned w ++ match Shlex.split command with
                              | inr cmds => [request cmds kw e]
                              | inl _ => []
                              end.
Proof.
  unfold tokenize_and_spawn.
  destruct (Shlex.split command) as [msg|cmds]; cbn zeta.
  - split; [done|]. by rewrite app_nil_r.
  - destruct (os_child w _ _) as [rc out err|out err|errno]; [|done..].
    by destruct (check kw && negb (rc =? 0)%Z).
Qed.

Lemma member_map_lookup name lc :
  (name, lc) ∈ _member_map_ → items_lookup _member_map_ name = Some lc.
Proof.
  unfold _member_map_. rewrite !elem_of_cons, elem_of_nil.
  intros [H|[H|[]]]; by simplify_eq.
Qed.

(** ** The steps of [run] that make no request *)

Lemma quiet_ret {A} (a : A) : quiet (ret a).
Proof. by intros w. Qed.

Lemma quiet_raise {A} e : quiet (@raise A e).
Proof. by intros w. Qed.

Lemma quiet_gets {A} (f : World → A) : quiet (gets f).
Proof. by intros w. Qed.

Lemma quiet_bind {A B} (c : M A) (k : A → M B) :
  quiet c → (∀ a, quiet (k a)) → quiet (bind c k).
Proof.
  intros Hc Hk w. unfold bind. destruct (Hc w) as [Hs Ho].
  destruct (c w) as [w' [e|a]]; [done|]. cbn [fst] in Hs, Ho.
  destruct (Hk a w') as [Hs' Ho']. split; congruence.
Qed.

Lemma quiet_logger_debug r : quiet (logger_debug r).
Proof. by intros w. Qed.

Lemma quiet_with_heap f : quiet (modify (with_heap f)).
Proof. by intros w. Qed.

#[local] Hint Resolve quiet_ret quiet_raise quiet_gets quiet_logger_debug
  quiet_with_heap : quiet.

Ltac quiet_steps :=
  repeat first
    [ solve [auto with quiet]
    | progress intros
    | apply quiet_bind
    | case_match ].

Lemma quiet_KEYS_getitem key : quiet (KEYS_getitem key).
Proof. unfold KEYS_getitem. quiet_steps. Qed.

Lemma quiet_dict_contains r key : quiet (dict_contains r key).
Proof. unfold dict_contains, deref. quiet_steps. Qed.

Lemma quiet_dict_update r other : quiet (dict_update r other).
Proof. unfold dict_update, deref. quiet_steps. Qed.

Lemma quiet_os_environ_copy : quiet os_environ_copy.
Proof. unfold os_environ_copy, new_dict. quiet_steps. Qed.

Lemma quiet_get_locale_env self : quiet (Shell._get_locale_env self).
Proof.
  unfold Shell._get_locale_env, KEYS_getitem, getattr_locale, getitem.
  quiet_steps.
Qed.

Lemma quiet_shlex_split command : quiet (shlex_split command).
Proof. unfold shlex_split. quiet_steps. Qed.

#[local] Hint Resolve quiet_KEYS_getitem quiet_dict_contains
  quiet_dict_update quiet_os_environ_copy quiet_get_locale_env
  quiet_shlex_split : quiet.



(** * The claims *)

(** C1 (the code departs from the claim).  With [shell=True], the default,
    the claim has the raw command string handed to the shell.  [run] hands
    [subprocess.run] the tokens of [shlex.split] whatever [shell] is: for
    ["echo hello"] the request carries the list [["echo"; "hello"]], so the
    child is [/bin/sh -c echo hello] (where [hello] is the shell's [$0], not
    an argument of [echo]) and not [/bin/sh -c "echo hello"]. *)
Theorem run_shell_true_hands_over_tokens :
  ∀ child,
    let w := (run "echo hello" Shell.defaults (imported ∅ child)).1 in
    shell Shell.defaults = true
    ∧ rq_args <$> spawned w = [ArgSeq ["echo"; "hello"]]
    ∧ (λ rq, posix_argv (rq_args rq) (rq_shell rq)) <$> spawned w
      = [["/bin/sh"; "-c"; "echo"; "hello"]]
    ∧ posix_argv (ArgStr "echo hello") true = ["/bin/sh"; "-c"; "echo hello"].
Proof.
  intros child w.
  assert (Hs : spawned w
               = [request ["echo"; "hello"] Shell.defaults
                    (resolve "LC_ALL" "en_US" ∅)]).
  { subst w. unfold run.
    rewrite (run_env_omitted _ _ _ _ "LC_ALL" {| locale := english |})
      by done.
    cbn zeta. by rewrite (proj2 (tokenize_and_spawn_world _ _ _ _)). }
  by rewrite Hs.
Qed.




(** C3.  [run] without [env]: the environment of the child is a new dict, a
    copy of [os.environ] ([os.environ] and the older dicts stay as they are);
    when the copy lacks the variable named under ["LOCALE_KEY"], that variable
    is added with the table's string for the current locale, and no other
    entry is added or changed. *)
Theorem run_env_omitted_copies_environ self command kw w key o :
  KEYS w !! "LOCALE_KEY" = Some key →
  objects w !! self = Some o →
  env kw = None →
  let w' := (Shell.run self command kw w).1 in
  let e := if decide (is_Some (environ w !! key)) then environ w
           else <[key := locale_string (locale o)]> (environ w) in
  environ w' = environ w
  ∧ heap w' = heap w ++ [e]
  ∧ spawned w' = spawned w ++ match Shlex.split command with
                              | inr cmds => [request cmds kw e]
                              | inl _ => []
                              end
  ∧ (environ w !! key = None → e !! key = Some (locale_string (locale o)))
  ∧ (∀ k, k ≠ key → e !! k = environ w !! k)
  ∧ (is_Some (environ w !! key) → e = environ w).
Proof.
  intros HK Ho Hkw w' e.
  assert (Hw' : w' = (tokenize_and_spawn command kw e
                        (with_heap (λ h, h ++ [e]) w)).1).
  { subst w'. by rewrite (run_env_omitted _ _ _ _ key o). }
  destruct (tokenize_and_spawn_world command kw e
              (with_heap (λ h, h ++ [e]) w)) as [Hheap Hspawned].
  split; [apply (keeps_run self command kw w)|].
  split; [by rewrite Hw', Hheap|].
  split; [by rewrite Hw', Hspawned|].
  subst e. destruct (decide (is_Some (environ w !! key))) as [Hin|Hin].
  - split; [intros Hnone; rewrite Hnone in Hin; by destruct Hin|done].
  - split; [intros _; apply lookup_insert_eq|].
    split; [intros k Hk; by apply lookup_insert_ne|done].
Qed.

Lemma run_env_omitted_copies_environ_witness :
  let w := imported {[ "PATH" := "/bin" ]} (λ _ _, Exited 0 None None) in
  let w' := (Shell.run _default_shell "echo hello" Shell.defaults w).1 in
  environ w' = {[ "PATH" := "/bin" ]}
  ∧ heap w' = [ <["LC_ALL" := "en_US"]> {[ "PATH" := "/bin" ]} ].
Proof.
  cbn zeta.
  destruct (run_env_omitted_copies_environ _default_shell "echo hello"
              Shell.defaults
              (imported {[ "PATH" := "/bin" ]} (λ _ _, Exited 0 None None))
              "LC_ALL" {| locale := english |})
    as (Henv & Hheap & _); [reflexivity..|].
  split; [exact Henv|exact Hheap].
Defined.

(** C4.  [run] with a dict of the caller's that has the configured locale
    variable: the dict is not changed, and the child gets it as it is, so the
    variable has for the child the value the caller gave it. *)
Theorem run_keeps_callers_locale self command kw w key r d v :
  KEYS w !! "LOCALE_KEY" = Some key →
  env kw = Some r →
  heap w !! r = Some d →
  d !! key = Some v →
  let w' := (Shell.run self command kw w).1 in
  heap w' = heap w
  ∧ spawned w' = spawned w ++ match Shlex.split command with
                              | inr cmds => [request cmds kw d]
                              | inl _ => []
                              end
  ∧ ∀ rq, spawned w' !! length (spawned w) = Some rq →
          rq_env rq !! key = Some v.
Proof.
  intros HK Hkw Hd Hv w'. subst w'.
  rewrite (run_env_given_present _ _ _ _ key r d) by eauto.
  destruct (tokenize_and_spawn_world command kw d w) as [Hheap Hspawned].
  split; [done|]. split; [done|].
  intros rq. rewrite Hspawned.
  destruct (Shlex.split command) as [msg|cmds].
  - rewrite app_nil_r. intros Hrq. apply lookup_lt_Some in Hrq. lia.
  - rewrite list_lookup_middle by done. by intros [= <-].
Qed.

Lemma run_keeps_callers_locale_witness :
  let w := (new_dict {[ "LC_ALL" := "fr_FR" ]}
              (imported ∅ (λ _ _, Exited 0 None None))).1 in
  let kw := {| timeout := 60; stdout := subprocess.PIPE;
               stderr := subprocess.PIPE; env := Some 0%nat; check := false;
               shell := false; text := true |} in
  (λ rq, rq_env rq !! "LC_ALL")
    <$> spawned (Shell.run _default_shell "true" kw w).1
  = [Some "fr_FR"].
Proof.
  cbn zeta.
  destruct (run_keeps_callers_locale _default_shell "true"
              {| timeout := 60; stdout := subprocess.PIPE;
                 stderr := subprocess.PIPE; env := Some 0%nat; check := false;
                 shell := false; text := true |}
              (new_dict {[ "LC_ALL" := "fr_FR" ]}
                 (imported ∅ (λ _ _, Exited 0 None None))).1
              "LC_ALL" 0%nat {[ "LC_ALL" := "fr_FR" ]} "fr_FR")
    as (_ & Hspawned & _); [reflexivity..|].
  rewrite Hspawned. reflexivity.
Defined.

(** C5.  [set_locale] with a name that is no member of [Locales] raises
    [KeyError], a [LookupError]; the configuration is as before, and a [run]
    after it does what the same [run] would have done without it (the same
    outcome, requests and dicts: the locale injected is the previous one). *)
Theorem set_locale_unknown_name_fails w name :
  name ≠ "english" →
  name ≠ "italian" →
  let w' := (set_locale name w).1 in
  (set_locale name w).2 = inl (KeyError (inl name))
  ∧ is_LookupError (KeyError (inl name)) = true
  ∧ configuration w' = configuration w
  ∧ ∀ command kw,
      (run command kw w').2 = (run command kw w).2
      ∧ same_but_logged (run command kw w').1 (run command kw w).1.
Proof.
  intros He Hi.
  rewrite set_locale_unknown by by apply member_map_names.
  cbn zeta. fields. split; [done|]. split; [done|]. split; [done|].
  intros command kw.
  destruct (log_blind_run _default_shell command kw
              (with_logged (λ l, l ++ [SettingLocale name]) w) w)
    as [Hw Hr]; [by repeat split|].
  by split.
Qed.

Lemma set_locale_unknown_name_fails_witness :
  let w := (set_locale "italian"
              (imported ∅ (λ _ _, Exited 0 None None))).1 in
  let w' := (set_locale "klingon" w).1 in
  (set_locale "klingon" w).2 = inl (KeyError (inl "klingon"))
  ∧ objects w' = [{| locale := italian |}]
  ∧ (λ rq, rq_env rq !! "LC_ALL")
      <$> spawned (run "true" Shell.defaults w').1 = [Some "it_IT"].
Proof.
  cbn zeta.
  destruct (set_locale_unknown_name_fails
              (set_locale "italian"
                 (imported ∅ (λ _ _, Exited 0 None None))).1 "klingon")
    as (Hres & _ & Hconf & Hrun); [done..|].
  split; [exact Hres|].
  split; [by inversion Hconf|].
  destruct (Hrun "true" Shell.defaults) as (_ & _ & _ & _ & Hspawned & _).
  rewrite Hspawned. reflexivity.
Defined.



(** C7.  The table of [_get_locale_env] has exactly one entry for every
    member of [Locales], so looking a locale up in it never raises, and in
    every reachable state [_get_locale_env] returns, for every instance, the
    one-entry dict with the table's string for the instance's locale. *)
Theorem locale_table_total w self o :
  reachable w →
  objects w !! self = Some o →
  (∀ lc, ∃ s, filter (λ item, item.1 = lc) Shell._map = [(lc, s)])
  ∧ (∀ lc, ∃ s, getitem Shell._map lc inr w = (w, inr s))
  ∧ ∃ key, Shell._get_locale_env self w
           = (w, inr {[ key := locale_string (locale o) ]}).
Proof.
  intros Hreach Ho.
  split; [intros [|]; eexists; reflexivity|].
  split; [intros lc; exists (locale_string lc); unfold getitem;
          by rewrite table_lookup|].
  destruct (reachable_configured w Hreach) as [[key HK] _].
  exists key. by apply get_locale_env_ok.
Qed.

Lemma locale_table_total_witness :
  let w := perform (SetLocale "italian")
             (imported ∅ (λ _ _, Exited 0 None None)) in
  ∃ key, Shell._get_locale_env _default_shell w
         = (w, inr {[ key := "it_IT" ]}).
Proof.
  cbn zeta.
  destruct (locale_table_total
              (perform (SetLocale "italian")
                 (imported ∅ (λ _ _, Exited 0 None None)))
              _default_shell {| locale := italian |})
    as (_ & _ & key & Hkey).
  - apply reachable_perform, reachable_imported.
  - reflexivity.
  - exists key. exact Hkey.
Defined.

(** C8 (the code departs from the claim).  [Shell(keys=...)] updates
    [Shell.KEYS], the dict of the class, which every instance reads: after
    [Shell(Locales.italian, {"LOCALE_KEY": "LANG"})] the default instance
    names the locale variable [LANG] and no longer [LC_ALL]. *)
Theorem Shell_keys_argument_reaches_default_shell :
  ∀ process_env child,
    let w0 := imported process_env child in
    let w1 := (Shell.new italian (Some {[ "LOCALE_KEY" := "LANG" ]}) w0).1 in
    objects w1 !! _default_shell = objects w0 !! _default_shell
    ∧ KEYS w0 !! "LOCALE_KEY" = Some "LC_ALL"
    ∧ KEYS w1 !! "LOCALE_KEY" = Some "LANG"
    ∧ configuration w1
      ≠ (KEYS w0, objects w0 ++ [{| locale := italian |}])
    ∧ Shell._get_locale_env _default_shell w0
      = (w0, inr {[ "LC_ALL" := "en_US" ]})
    ∧ Shell._get_locale_env _default_shell w1
      = (w1, inr {[ "LANG" := "en_US" ]}).
Proof.
  intros process_env child w0 w1.
  assert (H0 : KEYS w0 !! "LOCALE_KEY" = Some "LC_ALL") by reflexivity.
  assert (H1 : KEYS w1 !! "LOCALE_KEY" = Some "LANG") by reflexivity.
  split; [reflexivity|]. split; [exact H0|]. split; [exact H1|].
  split;
    [|split; by apply (get_locale_env_ok _ _ _ {| locale := english |})].
  intros Heq. apply (f_equal fst) in Heq. cbn [fst configuration] in Heq.
  rewrite Heq, H0 in H1. discriminate.
Qed.

(** C9.  [run] with a dict of the caller's that lacks the configured locale
    variable updates that very dict: after the call, whatever its outcome,
    the caller's dict has the variable, with the table's string. *)
Theorem run_updates_callers_dict self command kw w key o r d :
  KEYS w !! "LOCALE_KEY" = Some key →
  objects w !! self = Some o →
  env kw = Some r →
  heap w !! r = Some d →
  d !! key = None →
  let w' := (Shell.run self command kw w).1 in
  let e := <[key := locale_string (locale o)]> d in
  heap w' = <[r := e]> (heap w)
  ∧ heap w' !! r = Some e
  ∧ e !! key = Some (locale_string (locale o))
  ∧ spawned w' = spawned w ++ match Shlex.split command with
                              | inr cmds => [request cmds kw e]
                              | inl _ => []
                              end.
Proof.
  intros HK Ho Hkw Hd Hnone w' e. subst w'.
  rewrite (run_env_given_absent _ _ _ _ key o r d) by done. fold e.
  destruct (tokenize_and_spawn_world command kw e (with_heap (<[r := e]>) w))
    as [Hheap Hspawned].
  rewrite Hheap, Hspawned. fields.
  split; [done|]. split; [|split; [apply lookup_insert_eq|done]].
  apply list_lookup_insert_eq. by eapply lookup_lt_Some.
Qed.

Lemma run_updates_callers_dict_witness :
  let w := (new_dict {[ "PATH" := "/bin" ]}
              (imported ∅ (λ _ _, SpawnFailed 2))).1 in
  let kw := {| timeout := 60; stdout := subprocess.PIPE;
               stderr := subprocess.PIPE; env := Some 0%nat; check := false;
               shell := true; text := true |} in
  heap (Shell.run _default_shell "no-such-program" kw w).1
  = [ <["LC_ALL" := "en_US"]> {[ "PATH" := "/bin" ]} ].
Proof.
  cbn zeta.
  destruct (run_updates_callers_dict _default_shell "no-such-program"
              {| timeout := 60; stdout := subprocess.PIPE;
                 stderr := subprocess.PIPE; env := Some 0%nat; check := false;
                 shell := true; text := true |}
              (new_dict {[ "PATH" := "/bin" ]}
                 (imported ∅ (λ _ _, SpawnFailed 2))).1
              "LC_ALL" {| locale := english |} 0%nat {[ "PATH" := "/bin" ]})
    as (Hheap & _); [reflexivity..|].
  rewrite Hheap. reflexivity.
Defined.



(** * Further properties *)

(** ** [set_locale] and construction *)

(** X1.  [set_locale] with the name of a member sets the locale of the
    default instance to that member and returns; every other instance keeps
    its locale, and [Shell.KEYS], [os.environ], the dicts and the requests
    are as before. *)
Theorem set_locale_sets_default_only w name lc :
  (name, lc) ∈ _member_map_ →
  is_Some (objects w !! _default_shell) →
  let w' := (set_locale name w).1 in
  (set_locale name w).2 = inr ()
  ∧ objects w' !! _default_shell = Some {| locale := lc |}
  ∧ (∀ i, i ≠ _default_shell → objects w' !! i = objects w !! i)
  ∧ length (objects w') = length (objects w)
  ∧ KEYS w' = KEYS w
  ∧ environ w' = environ w
  ∧ heap w' = heap w
  ∧ spawned w' = spawned w.
Proof.
  intros Hname Ho. apply member_map_lookup in Hname.
  rewrite (set_locale_known _ lc) by done. cbn zeta. fields.
  split; [done|]. split.
  { apply list_lookup_insert_eq. by apply lookup_lt_is_Some. }
  split; [intros i Hi; by apply list_lookup_insert_ne|].
  split; [apply length_insert|done].
Qed.

Lemma set_locale_sets_default_only_witness :
  let w := (Shell.new english None
              (imported ∅ (λ _ _, Exited 0 None None))).1 in
  objects (set_locale "italian" w).1
  = [{| locale := italian |}; {| locale := english |}].
Proof.
  cbn zeta.
  destruct (set_locale_sets_default_only
              (Shell.new english None
                 (imported ∅ (λ _ _, Exited 0 None None))).1
              "italian" italian)
    as (_ & _ & _ & _ & _).
  - unfold _member_map_. apply list_elem_of_further, list_elem_of_here.
  - by eexists.
  - reflexivity.
Defined.



(** X3.  [Shell(_locale, keys)] returns a new reference, to an instance with
    the locale given; the instances there were keep their references and
    their locales.  [Shell.KEYS] is as before when [keys] is omitted;
    otherwise the entries of [keys] are written over it and the others stay,
    so that no key is ever removed. *)
Theorem Shell_new_adds_an_instance _locale keys w :
  let w' := (Shell.new _locale keys w).1 in
  (Shell.new _locale keys w).2 = inr (length (objects w))
  ∧ objects w' = objects w ++ [{| locale := _locale |}]
  ∧ (∀ i o, objects w !! i = Some o → objects w' !! i = Some o)
  ∧ (keys = None → KEYS w' = KEYS w)
  ∧ (∀ ks k, keys = Some ks →
       KEYS w' !! k = match ks !! k with
                      | Some v => Some v
                      | None => KEYS w !! k
                      end)
  ∧ (∀ k, is_Some (KEYS w !! k) → is_Some (KEYS w' !! k))
  ∧ environ w' = environ w
  ∧ heap w' = heap w
  ∧ spawned w' = spawned w
  ∧ logged w' = logged w.
Proof.
  rewrite new_eq. cbn zeta. fields.
  split; [done|]. split; [done|].
  split; [intros i o Hi; by apply lookup_app_l_Some|].
  split; [by intros ->|].
  split.
  { intros ks k ->. rewrite lookup_union.
    by destruct (ks !! k), (KEYS w !! k). }
  split; [|done].
  intros k [v Hv]. destruct keys as [ks|]; [|by eexists].
  rewrite lookup_union, Hv. by destruct (ks !! k).
Qed.





(** ** More on [run] *)

(** [run], once the environment is resolved: what is left is the tokenizing
    and the request, in a world that differs in the dict of [env] only. *)
Lemma run_factors self command kw w key o :
  KEYS w !! "LOCALE_KEY" = Some key →
  objects w !! self = Some o →
  (∀ r, env kw = Some r → is_Some (heap w !! r)) →
  ∃ e w0,
    Shell.run self command kw w = tokenize_and_spawn command kw e w0
    ∧ configuration w0 = configuration w
    ∧ logged w0 = logged w
    ∧ spawned w0 = spawned w
    ∧ os_child w0 = os_child w
    ∧ ∀ r, Some r ≠ env kw → (r < length (heap w))%nat →
           heap w0 !! r = heap w !! r.
Proof.
  intros HK Ho Henv. destruct (env kw) as [r|] eqn:Hkw.
  - destruct (Henv r eq_refl) as [d Hd].
    destruct (d !! key) as [v|] eqn:Hv.
    + exists d, w. split; [by eapply run_env_given_present|done].
    + eexists _, _. split; [by eapply run_env_given_absent|].
      repeat split. intros r' Hr' _. fields.
      apply list_lookup_insert_ne. congruence.
  - eexists _, _. split; [by eapply run_env_omitted|].
    repeat split. intros r' _ Hr'. fields. by apply lookup_app_l.
Qed.

Lemma tokenize_and_spawn_logged command kw e w :
  logged (tokenize_and_spawn command kw e w).1
  = logged w ++ run_log command (tokenize_and_spawn command kw e w).2.
Proof.
  unfold tokenize_and_spawn, run_log.
  destruct (Shlex.split command) as [msg|cmds]; cbn zeta.
  - cbn. by rewrite app_nil_r.
  - destruct (os_child w _ _) as [rc out err|out err|errno]; [|done..].
    destruct (check kw && negb (rc =? 0)%Z); [done|].
    cbn. by rewrite <- app_assoc.
Qed.


(** X6.  The locale that [run] has put into a dict of the caller's stays
    there: when the same dict is passed to a later [run], after [set_locale]
    has changed the locale, the dict is not changed again and the child gets
    the earlier locale. *)
Theorem callers_dict_keeps_first_locale
    w key o r d name lc command1 kw1 command2 kw2 :
  KEYS w !! "LOCALE_KEY" = Some key →
  objects w !! _default_shell = Some o →
  env kw1 = Some r →
  env kw2 = Some r →
  heap w !! r = Some d →
  d !! key = None →
  (name, lc) ∈ _member_map_ →
  let w1 := (run command1 kw1 w).1 in
  let w2 := (set_locale name w1).1 in
  let w3 := (run command2 kw2 w2).1 in
  let e := <[key := locale_string (locale o)]> d in
  objects w2 !! _default_shell = Some {| locale := lc |}
  ∧ heap w3 !! r = Some e
  ∧ spawned w3 = spawned w2 ++ match Shlex.split command2 with
                               | inr cmds => [request cmds kw2 e]
                               | inl _ => []
                               end.
Proof.
  intros HK Ho Hkw1 Hkw2 Hd Hnone Hname w1 w2 w3 e.
  destruct (keeps_run _default_shell command1 kw1 w) as (Hconf & _).
  fold (run command1 kw1 w) in Hconf. fold w1 in Hconf.
  inversion Hconf as [[HK1 Ho1]].
  assert (Hheap1 : heap w1 !! r = Some e).
  { subst w1. unfold run.
    rewrite (run_env_given_absent _ _ _ _ key o r d) by done. fold e.
    rewrite (proj1 (tokenize_and_spawn_world _ _ _ _)). fields.
    apply list_lookup_insert_eq. by eapply lookup_lt_Some. }
  destruct (set_locale_sets_default_only w1 name lc)
    as (_ & Ho2 & _ & _ & HK2 & _ & Hheap2 & _);
    [done|rewrite Ho1; by eexists|].
  fold w2 in Ho2, HK2, Hheap2.
  split; [done|].
  subst w3. unfold run.
  rewrite (run_env_given_present _ _ _ _ key r e);
    [|congruence|done|congruence|subst e; rewrite lookup_insert_eq; by eexists].
  destruct (tokenize_and_spawn_world command2 kw2 e w2) as [Hheap3 Hspawned3].
  split; [congruence|done].
Qed.

Lemma callers_dict_keeps_first_locale_witness :
  let w := (new_dict ∅ (imported ∅ (λ _ _, Exited 0 None None))).1 in
  let kw := {| timeout := 60; stdout := subprocess.PIPE;
               stderr := subprocess.PIPE; env := Some 0%nat; check := false;
               shell := true; text := true |} in
  let w3 := (run "true" kw (set_locale "italian" (run "true" kw w).1).1).1 in
  heap w3 !! 0%nat = Some (<["LC_ALL" := "en_US"]> ∅).
Proof.
  cbn zeta.
  destruct (callers_dict_keeps_first_locale
              (new_dict ∅ (imported ∅ (λ _ _, Exited 0 None None))).1
              "LC_ALL" {| locale := english |} 0%nat ∅ "italian" italian
              "true"
              {| timeout := 60; stdout := subprocess.PIPE;
                 stderr := subprocess.PIPE; env := Some 0%nat;
                 check := false; shell := true; text := true |}
              "true"
              {| timeout := 60; stdout := subprocess.PIPE;
                 stderr := subprocess.PIPE; env := Some 0%nat;
                 check := false; shell := true; text := true |})
    as (_ & Hheap & _); [reflexivity..| |].
  - unfold _member_map_. apply list_elem_of_further, list_elem_of_here.
  - exact Hheap.
Defined.

(** X7.  The debug records of a [run]: none when the command does not
    tokenize; otherwise the record of the command, followed by the record of
    the result only when [run] returns (an exception of [subprocess.run]
    leaves the first record alone). *)
Theorem run_debug_records self command kw w key o :
  KEYS w !! "LOCALE_KEY" = Some key →
  objects w !! self = Some o →
  (∀ r, env kw = Some r → is_Some (heap w !! r)) →
  logged (Shell.run self command kw w).1
  = logged w ++ match Shlex.split command with
                | inl _ => []
                | inr _ =>
                    Running command
                    :: match (Shell.run self command kw w).2 with
                       | inr res => [GotResult res]
                       | inl _ => []
                       end
                end.
Proof.
  intros HK Ho Henv.
  destruct (run_factors self command kw w key o HK Ho Henv)
    as (e & w0 & -> & _ & Hlogged & _).
  by rewrite tokenize_and_spawn_logged, Hlogged.
Qed.

Lemma run_debug_records_witness :
  let w := imported ∅ (λ _ _, TimedOut None None) in
  logged (Shell.run _default_shell "sleep 5" Shell.defaults w).1
  = [Running "sleep 5"].
Proof.
  cbn zeta.
  rewrite (run_debug_records _default_shell "sleep 5" Shell.defaults
             (imported ∅ (λ _ _, TimedOut None None))
             "LC_ALL" {| locale := english |}).
  - reflexivity.
  - reflexivity.
  - reflexivity.
  - intros r Hr. discriminate Hr.
Defined.





(** ** The request and the result of [run], without assumptions *)

Lemma quiet_then {A B} (c : M A) (k : A → M B)
    (P : list spawn_request
         → (list spawn_request → spawn_request → child_outcome)
         → World * (exn + B) → Prop) :
  quiet c →
  (∀ w w' e, c w = (w', inl e) →
             P (spawned w') (os_child w') (w', inl e)) →
  (∀ a w w', c w = (w', inr a) → P (spawned w') (os_child w') (k a w')) →
  ∀ w, P (spawned w) (os_child w) (bind c k w).
Proof.
  intros Hc He Hk w. unfold bind. destruct (Hc w) as [Hs Ho].
  destruct (c w) as [w' [e|a]] eqn:Hcw; cbn [fst] in Hs, Ho;
    rewrite <- Hs, <- Ho; eauto.
Qed.

Lemma run_post_raise command kw w e :
  run_post command kw (spawned w) (os_child w)
    (w, inl e : exn + CompletedProcess).
Proof. left. split; [done|]. by exists e. Qed.

Lemma run_post_subprocess_run command cmds kw env w :
  Shlex.split command = inr cmds →
  run_post command kw (spawned w) (os_child w)
    ((let* res := subprocess.run (ArgSeq cmds) (stdout kw) (stderr kw)
                    (timeout kw) env (check kw) (shell kw) (text kw) in
      let* _ := logger_debug (GotResult res) in
      ret res) w).
Proof.
  intros Hcmd. destruct w as [K O E H S L child]. unfold run_post.
  unfold_ops. world_fields.
  destruct (H !! env) as [e|]; cbn [fst snd].
  - right. exists cmds, e. split; [done|]. unfold request, result_of_child.
    destruct (child S _) as [rc out err|out err|errno]; [|done..].
    by destruct (check kw && negb (rc =? 0)%Z).
  - left. split; [done|]. by eexists.
Qed.

Lemma run_post_run self command kw w :
  run_post command kw (spawned w) (os_child w) (Shell.run self command kw w).
Proof.
  revert w. unfold Shell.run.
  do 4 (apply quiet_then;
        [quiet_steps|intros; apply run_post_raise|intros ? _ ? _]).
  apply quiet_then; [quiet_steps|intros; apply run_post_raise|].
  intros cmds w0 w1 Hsplit.
  assert (Hcmd : Shlex.split command = inr cmds).
  { unfold shlex_split in Hsplit.
    destruct (Shlex.split command); [discriminate|].
    by injection Hsplit as _ <-. }
  clear Hsplit w0. revert w1.
  apply quiet_then; [quiet_steps|intros; apply run_post_raise|].
  intros _ _ w _. by apply run_post_subprocess_run.
Qed.

(** X10.  Whatever the state and the arguments, [run] makes at most one
    request.  If it makes none it raises; if it makes one, the request has
    the tokens of the command as [args], whatever [shell] is, and [timeout],
    [stdout], [stderr], [shell] and [text] as they were passed. *)
Theorem run_makes_at_most_one_request self command kw w :
  let r := Shell.run self command kw w in
  (spawned r.1 = spawned w ∧ ∃ e, r.2 = inl e)
  ∨ (∃ cmds e,
       Shlex.split command = inr cmds
       ∧ spawned r.1
         = spawned w
           ++ [{| rq_args := ArgSeq cmds; rq_shell := shell kw; rq_env := e;
                  rq_stdout := stdout kw; rq_stderr := stderr kw;
                  rq_timeout := timeout kw; rq_text := text kw |}]).
Proof.
  destruct (run_post_run self command kw w)
    as [H|(cmds & e & Hcmd & Hs & _)]; [by left|].
  right. by exists cmds, e.
Qed.



(** ** The tokens of commands of simple shapes *)

Lemma append_cons c s t : String c s +:+ t = String c (s +:+ t).
Proof. reflexivity. Qed.

Lemma append_empty_l s : EmptyString +:+ s = s.
Proof. reflexivity. Qed.

Lemma append_empty_r s : s +:+ EmptyString = s.
Proof.
  induction s as [|c s IH]; [done|]. by rewrite append_cons, IH.
Qed.

Lemma append_assoc_string s1 s2 s3 :
  (s1 +:+ s2) +:+ s3 = s1 +:+ (s2 +:+ s3).
Proof.
  induction s1 as [|c s1 IH]; [done|]. by rewrite !append_cons, IH.
Qed.

Lemma push_append tok c s : Shlex.push tok c +:+ s = tok +:+ String c s.
Proof. unfold Shlex.push. by rewrite append_assoc_string. Qed.

Lemma push_not_empty tok c : Shlex.push tok c ≠ EmptyString.
Proof. unfold Shlex.push. by destruct tok. Qed.

Lemma all_chars_push p tok c :
  all_chars p tok = true → p c = true → all_chars p (Shlex.push tok c) = true.
Proof.
  unfold Shlex.push. intros Htok Hc.
  induction tok as [|c' tok IH].
  - rewrite append_empty_l. cbn. by rewrite Hc.
  - rewrite append_cons. cbn [all_chars] in *.
    apply andb_true_iff in Htok as [-> Htok]. by apply IH.
Qed.

Lemma word_push tok c :
  (tok = EmptyString ∨ word tok) → is_whitespace c = false →
  word (Shlex.push tok c).
Proof.
  intros Htok Hc. split; [apply push_not_empty|].
  apply all_chars_push; [|by rewrite Hc].
  by destruct Htok as [->|[_ Htok]].
Qed.

Lemma result_word tok : tok ≠ EmptyString → Shlex.result false tok = Some tok.
Proof.
  intros Htok. unfold Shlex.result. by rewrite bool_decide_false.
Qed.


Lemma tokens_unquoted s :
  all_chars unquoted s = true →
  ∀ es,
    (∃ ts, Shlex.tokens s Shlex.Whitespace es false EmptyString = inr ts
           ∧ Forall word ts
           ∧ joined ts = keep_chars (λ c, negb (is_whitespace c)) s)
    ∧ (∀ tok, word tok →
         ∃ ts, Shlex.tokens s Shlex.Word es false tok = inr ts
               ∧ Forall word ts
               ∧ joined ts
                 = tok +:+ keep_chars (λ c, negb (is_whitespace c)) s).
Proof.
  induction s as [|c s IH]; intros Hs es.
  - split; [by exists []|].
    intros tok Htok. exists [tok]. cbn [Shlex.tokens].
    rewrite result_word by apply Htok.
    split; [done|]. split; [by apply Forall_singleton|]. reflexivity.
  - cbn [all_chars] in Hs. apply andb_true_iff in Hs as [Hc Hs].
    unfold unquoted in Hc.
    apply andb_true_iff in Hc as [Hq%negb_true_iff He%negb_true_iff].
    specialize (IH Hs). cbn [Shlex.tokens keep_chars].
    change (Chars.mem c Shlex.whitespace) with (is_whitespace c).
    destruct (is_whitespace c) eqn:Hw; cbn [negb].
    + split.
      * rewrite bool_decide_true by done. cbn [negb orb]. apply IH.
      * intros tok Htok.
        rewrite bool_decide_false by apply Htok. cbn [negb orb].
        rewrite result_word by apply Htok.
        destruct (proj1 (IH Shlex.Whitespace)) as (ts & -> & Hts & Hj).
        exists (tok :: ts). split; [done|]. split; [by constructor|].
        unfold joined in *. cbn [foldr]. by rewrite Hj.
    + rewrite He, Hq. split.
      * destruct (proj2 (IH es) (String c EmptyString))
          as (ts & -> & Hts & Hj).
        { split; [done|]. cbn [all_chars]. by rewrite Hw. }
        by exists ts.
      * intros tok Htok.
        destruct (proj2 (IH es) (Shlex.push tok c)) as (ts & -> & Hts & Hj).
        { apply word_push; [by right|done]. }
        exists ts. split; [done|]. split; [done|]. by rewrite Hj, push_append.
Qed.

Lemma tokens_word_then p ws rest :
  all_chars plain p = true →
  is_whitespace ws = true →
  ∀ es tok, tok +:+ p ≠ EmptyString →
    Shlex.tokens (p +:+ String ws rest) Shlex.Word es false tok
    = Shlex.emit (tok +:+ p) (Shlex.split rest).
Proof.
  intros Hp Hws. unfold is_whitespace in Hws.
  induction p as [|c p IH]; intros es tok Htok.
  - rewrite append_empty_r in *. rewrite append_empty_l.
    cbn [Shlex.tokens]. rewrite Hws, bool_decide_false by done. cbn [negb orb].
    by rewrite result_word.
  - cbn [all_chars] in Hp. apply andb_true_iff in Hp as [Hc Hp].
    unfold plain, unquoted, is_whitespace in Hc.
    apply andb_true_iff in Hc as [Hw%negb_true_iff Hc].
    apply andb_true_iff in Hc as [Hq%negb_true_iff He%negb_true_iff].
    rewrite append_cons. cbn [Shlex.tokens]. rewrite Hw, Hq, He.
    rewrite IH by (rewrite ?push_append; done).
    by rewrite push_append.
Qed.

Lemma split_word_then p ws rest :
  all_chars plain p = true →
  p ≠ EmptyString →
  is_whitespace ws = true →
  Shlex.split (p +:+ String ws rest) = Shlex.emit p (Shlex.split rest).
Proof.
  intros Hp Hne Hws. destruct p as [|c p]; [done|].
  cbn [all_chars] in Hp. apply andb_true_iff in Hp as [Hc Hp].
  unfold plain, unquoted, is_whitespace in Hc.
  apply andb_true_iff in Hc as [Hw%negb_true_iff Hc].
  apply andb_true_iff in Hc as [Hq%negb_true_iff He%negb_true_iff].
  unfold Shlex.split at 1. rewrite append_cons. cbn [Shlex.tokens].
  rewrite Hw, Hq, He. by rewrite tokens_word_then.
Qed.

Lemma tokens_in_single_quotes s rest :
  all_chars (λ c, negb (Ascii.eqb c Chars.squote)) s = true →
  ∀ es q tok,
    Shlex.tokens (s +:+ String Chars.squote rest)
      (Shlex.InQuote Chars.squote) es q tok
    = Shlex.tokens rest Shlex.Word es true (tok +:+ s).
Proof.
  induction s as [|c s IH]; intros Hs es q tok.
  - rewrite append_empty_r, append_empty_l. cbn [Shlex.tokens].
    by rewrite Ascii.eqb_refl.
  - cbn [all_chars] in Hs. apply andb_true_iff in Hs as [Hc%negb_true_iff Hs].
    rewrite append_cons. cbn [Shlex.tokens]. rewrite Hc.
    replace (Chars.mem Chars.squote Shlex.escapedquotes) with false
      by reflexivity.
    rewrite andb_false_r, IH by done. by rewrite push_append.
Qed.



(** X13.  A command without quotes and without backslash always tokenizes:
    its tokens are not empty, have no whitespace in them and are, one after
    the other, the command without its whitespace. *)
Theorem split_unquoted_command command :
  all_chars unquoted command = true →
  ∃ cmds,
    Shlex.split command = inr cmds
    ∧ Forall word cmds
    ∧ joined cmds = keep_chars (λ c, negb (is_whitespace c)) command.
Proof.
  intros Hcommand.
  apply (tokens_unquoted command Hcommand Shlex.Whitespace).
Qed.

Lemma split_unquoted_command_witness :
  ∃ cmds, Shlex.split "ls  -l /tmp" = inr cmds ∧ joined cmds = "ls-l/tmp".
Proof.
  destruct (split_unquoted_command "ls  -l /tmp") as (cmds & Hsplit & _ & Hj).
  - reflexivity.
  - exists cmds. split; [exact Hsplit|exact Hj].
Defined.

(** X14.  A program name followed by an argument in single quotes: the
    argument reaches the request as one token, with its whitespace, its
    double quotes and its backslashes as they are. *)
Theorem run_keeps_single_quoted_argument self program argument kw w rq :
  all_chars plain program = true →
  program ≠ EmptyString →
  all_chars (λ c, negb (Ascii.eqb c Chars.squote)) argument = true →
  let command :=
    program +:+ String Chars.space
      (String Chars.squote (argument +:+ String Chars.squote EmptyString)) in
  spawned (Shell.run self command kw w).1 = spawned w ++ [rq] →
  Shlex.split command = inr [program; argument]
  ∧ rq_args rq = ArgSeq [program; argument].
Proof.
  intros Hprogram Hne Hargument command Hrq.
  assert (Hsplit : Shlex.split command = inr [program; argument]).
  { subst command. rewrite split_word_then by done.
    unfold Shlex.split. cbn [Shlex.tokens].
    replace (Chars.mem Chars.squote Shlex.whitespace) with false
      by reflexivity.
    replace (Chars.mem Chars.squote Shlex.escape) with false by reflexivity.
    replace (Chars.mem Chars.squote Shlex.quotes) with true by reflexivity.
    rewrite tokens_in_single_quotes by done.
    by rewrite append_empty_l. }
  split; [done|].
  destruct (run_post_run self command kw w)
    as [[Hs _]|(cmds & e & Hcmd & Hs & _)].
  - rewrite Hs in Hrq. apply (f_equal length) in Hrq.
    rewrite length_app in Hrq. cbn in Hrq. lia.
  - rewrite Hs in Hrq. apply app_inv_head in Hrq. injection Hrq as <-.
    cbn [rq_args request]. congruence.
Qed.

Lemma run_keeps_single_quoted_argument_witness :
  Shlex.split "printf 'a b'" = inr ["printf"; "a b"]
  ∧ rq_args (request ["printf"; "a b"] Shell.defaults
               {[ "LC_ALL" := "en_US" ]})
    = ArgSeq ["printf"; "a b"].
Proof.
  apply (run_keeps_single_quoted_argument _default_shell "printf" "a b"
           Shell.defaults (imported ∅ (λ _ _, Exited 0 None None))
           (request ["printf"; "a b"] Shell.defaults
              {[ "LC_ALL" := "en_US" ]})).
  - reflexivity.
  - discriminate.
  - reflexivity.
  - reflexivity.
Defined.
